(** * openlane/flows/sequential.py: the sequential flow

    A shallow embedding of [SequentialFlow.make] and [SequentialFlow.run],
    and the properties of the flow that follow from the code.

    The flow talks to three collaborators that live in other modules:
    the steps ([cls()], [step.id], [step.name], [step.start()]), the
    progress tracker of the [Flow] base class ([set_max_stage_count],
    [start_stage], [end_stage]) and the logger ([log], [success]).  Every
    call to one of them is recorded, in order, in a trace; what a step
    does to the rest of the process (files, tools, module globals) is an
    abstract [World] that only [start] reads and writes. *)

From stdpp Require Import base option list strings gmap.

Set Default Proof Using "Type".
Open Scope string_scope.
Open Scope list_scope.

(** ** Exceptions *)

(** The exception classes the module raises: [TypeError] in [make],
    [FlowException] and [FlowError] in [run]; [str(e)] is the message. *)
Inductive Exn : Type :=
  | TypeError (msg : string)
  | FlowException (msg : string)
  | FlowError (msg : string).

Inductive Outcome (A : Type) : Type :=
  | Ok (a : A)
  | Raise (e : Exn).
Arguments Ok {A} a.
Arguments Raise {A} e.

Section Sequential.

(** [State] is [openlane.steps.State]; [World] is whatever else a step can
    see and change; [Value] is the type of a keyword argument's value. *)
Context {State World Value : Type}.

(** ** Steps *)

(** Modelled from the spec: [Step] and [MissingInputError] are defined in
    openlane/steps, which is not part of this module.  By the step run
    contract a call of [start] returns a new state or fails in one of two
    ways, a missing input or a failed tool invocation; these are the two
    exceptions [run] handles, [MissingInputError] and
    [subprocess.CalledProcessError]. *)
Inductive StartResult : Type :=
  | Returns (new_state : State)
  | RaisesMissingInputError (msg : string)
  | RaisesCalledProcessError (msg : string).

(** An element [cls] of [Steps].  [cls()] is called without arguments, so
    the instance is determined by the class and both are this record.
    [start] is called without arguments as well: all it receives is the
    instance and the ambient world. *)
Record Step : Type := {
  id : string;
  name : string;
  start : World → StartResult * World;
}.

(** A flow class: [name] and [Steps]. *)
Record SequentialFlow : Type := {
  flow_name : string;
  Steps : list Step;
}.

(** ** Calls to the collaborators *)

Inductive Event : Type :=
  | ELog (msg : string)                        (* log(msg) *)
  | ESuccess (msg : string)                    (* success(msg) *)
  | ESetMaxStageCount (n : nat)                (* self.set_max_stage_count(n) *)
  | EStartStage (stage : string)               (* self.start_stage(name) *)
  | EEndStage (no_increment_ordinal : bool)    (* self.end_stage(no_increment_ordinal=...) *)
  | EStart (step : Step) (r : StartResult).    (* step.start(), with what it did *)

(** ** The monad of [run]: world, trace of calls, exceptions *)

Record Result (A : Type) : Type := {
  outcome : Outcome A;
  final_world : World;
  trace : list Event;
}.
Arguments outcome {A} r.
Arguments final_world {A} r.
Arguments trace {A} r.

Definition M (A : Type) : Type := World → Result A.

Definition ret {A} (a : A) : M A :=
  λ w, {| outcome := Ok a; final_world := w; trace := [] |}.

Definition raise {A} (e : Exn) : M A :=
  λ w, {| outcome := Raise e; final_world := w; trace := [] |}.

Definition bind {A B} (m : M A) (k : A → M B) : M B :=
  λ w,
    let r := m w in
    match outcome r with
    | Ok a =>
        let r' := k a (final_world r) in
        {| outcome := outcome r';
           final_world := final_world r';
           trace := trace r ++ trace r' |}
    | Raise e =>
        {| outcome := Raise e; final_world := final_world r; trace := trace r |}
    end.

Definition emit (ev : Event) : M unit :=
  λ w, {| outcome := Ok tt; final_world := w; trace := [ev] |}.

Notation "x <~ m ;; k" := (bind m (λ x, k))
  (at level 100, m at next level, right associativity).
Notation "m ;;; k" := (bind m (λ _, k))
  (at level 100, right associativity).

Definition log (msg : string) : M unit := emit (ELog msg).
Definition success (msg : string) : M unit := emit (ESuccess msg).
Definition set_max_stage_count (n : nat) : M unit := emit (ESetMaxStageCount n).
Definition start_stage (stage : string) : M unit := emit (EStartStage stage).
Definition end_stage (no_increment_ordinal : bool) : M unit :=
  emit (EEndStage no_increment_ordinal).

(** [step.start()] inside its [try]: the call, as the world sees it. *)
Definition call_start (step : Step) : M StartResult :=
  λ w,
    let (r, w') := start step w in
    {| outcome := Ok r; final_world := w'; trace := [EStart step r] |}.

(** [for x in l: body], threading the loop's local variables. *)
Fixpoint for_each {A V} (l : list A) (body : V → A → M V) (vars : V) : M V :=
  match l with
  | [] => ret vars
  | x :: rest => vars' <~ body vars x ;; for_each rest body vars'
  end.

(** ** [SequentialFlow.make] *)

(** [Step.factory] is the registry of step classes by id, taken here as
    an argument; [Step.factory.get(name)] is a lookup that returns [None]
    for an id that is not registered. *)
Fixpoint make_loop (factory : gmap string Step) (step_ids : list string)
    (step_list : list Step) : Outcome (list Step) :=
  match step_ids with
  | [] => Ok step_list
  | name :: rest =>
      match factory !! name with
      | None => Raise (TypeError ("No step found with id '" +:+ name +:+ "'"))
      | Some step => make_loop factory rest (step_list ++ [step])
      end
  end.

Definition make (factory : gmap string Step) (step_ids : list string)
    : Outcome SequentialFlow :=
  match make_loop factory step_ids [] with
  | Raise e => Raise e
  | Ok step_list =>
      Ok {| flow_name := "Custom Sequential Flow"; Steps := step_list |}
  end.

(** ** [SequentialFlow.run] *)

(** The variables the loop of [run] updates. *)
Record Locals : Type := {
  executing : bool;
  state_list : list State;
  step_list : list Step;
}.

(** [x is None] *)
Definition is_none {A} (x : option A) : bool :=
  match x with
  | None => true
  | Some _ => false
  end.

(** [x is not None and x == i] *)
Definition is_id (x : option string) (i : string) : bool :=
  match x with
  | None => false
  | Some s => String.eqb s i
  end.

(** One iteration of [for cls in self.Steps].  [self.end_stage()] leaves
    [no_increment_ordinal] to its default, [False]; [continue] and [raise]
    end the iteration where they stand. *)
Definition body (frm to : option string) (vars : Locals) (cls : Step) : M Locals :=
  let step := cls in
  let executing := if is_id frm (id step) then true else executing vars in
  start_stage (name step) ;;;
  if negb executing then
    log ("Skipping step '" +:+ name step +:+ "'…") ;;;
    end_stage true ;;;
    ret {| executing := executing;
           state_list := state_list vars;
           step_list := step_list vars |}
  else
    let step_list := step_list vars ++ [step] in
    r <~ call_start step ;;
    match r with
    | RaisesMissingInputError e => raise (FlowException e)
    | RaisesCalledProcessError e => raise (FlowError e)
    | Returns new_state =>
        let state_list := state_list vars ++ [new_state] in
        end_stage false ;;;
        let executing := if is_id to (id step) then false else executing in
        ret {| executing := executing;
               state_list := state_list;
               step_list := step_list |}
    end.

Definition run (self : SequentialFlow) (initial_state : State)
    (frm to : option string) (kwargs : gmap string Value)
    : M (list State * list Step) :=
  let step_count := length (Steps self) in
  set_max_stage_count step_count ;;;
  let vars :=
    {| state_list := [initial_state];
       step_list := [];
       executing := is_none frm |} in
  log "Starting…" ;;;
  vars <~ for_each (Steps self) (body frm to) vars ;;
  success "Flow complete." ;;;
  ret (state_list vars, step_list vars).

(** ** Reading a trace *)

(** The exception [run] raises for a result of [start], if any. *)
Definition failure_of (r : StartResult) : option Exn :=
  match r with
  | Returns _ => None
  | RaisesMissingInputError e => Some (FlowException e)
  | RaisesCalledProcessError e => Some (FlowError e)
  end.

(** The steps whose [start] was called, in order. *)
Definition started_steps (t : list Event) : list Step :=
  omap (λ ev, match ev with EStart s _ => Some s | _ => None end) t.

(** The states the calls of [start] returned, in order. *)
Definition returned_states (t : list Event) : list State :=
  omap (λ ev, match ev with EStart _ (Returns st) => Some st | _ => None end) t.

(** The calls to the progress tracker, in order. *)
Definition progress_calls (t : list Event) : list Event :=
  omap (λ ev, match ev with
              | ESetMaxStageCount _ | EStartStage _ | EEndStage _ => Some ev
              | _ => None
              end) t.

Definition stage_opens (t : list Event) : nat :=
  length (omap (λ ev, match ev with EStartStage n => Some n | _ => None end) t).

Definition stage_closes (t : list Event) : nat :=
  length (omap (λ ev, match ev with EEndStage b => Some b | _ => None end) t).

(** One entry per closed stage: [true] when the stage was closed by the
    executing branch, [false] when it was closed by the skipping branch. *)
Definition stage_mask (t : list Event) : list bool :=
  omap (λ ev, match ev with EEndStage b => Some (negb b) | _ => None end) t.

(** The elements of [l] at the positions where [mask] is [true]. *)
Fixpoint select {A} (mask : list bool) (l : list A) : list A :=
  match mask, l with
  | b :: mask', x :: l' => if b then x :: select mask' l' else select mask' l'
  | _, _ => []
  end.

(** No call of [start] in the trace raised. *)
Definition clean (t : list Event) : Prop :=
  ∀ s r, EStart s r ∈ t → failure_of r = None.

(** Each call of [start] in the trace is [start] applied to the world
    the previous calls left, beginning with [w] and ending with [w']. *)
Fixpoint replays (t : list Event) (w w' : World) : Prop :=
  match t with
  | [] => w' = w
  | EStart s r :: t' => fst (start s w) = r ∧ replays t' (snd (start s w)) w'
  | _ :: t' => replays t' w w'
  end.

End Sequential.

Arguments Step : clear implicits.
Arguments StartResult : clear implicits.
Arguments SequentialFlow : clear implicits.
Arguments Event : clear implicits.
Arguments Result : clear implicits.
Arguments Locals : clear implicits.
Arguments outcome {State World A} r.
Arguments final_world {State World A} r.
Arguments trace {State World A} r.


(** ** Notions used to state what [run] does *)

Section Notions.
Context {State World : Type}.
Implicit Types (s : Step State World) (w : World) (ex : bool).
Implicit Types (steps pre rest : list (Step State World)).
Implicit Types (frm to : option string).
Implicit Types (t : list (Event State World)).

(** The loop's variables with nothing collected yet. *)
Definition fresh ex : Locals State World :=
  {| executing := ex; state_list := []; step_list := [] |}.

(** [r], after the calls [t], for a loop that had already collected the
    states [sts] and the steps [sps]. *)
Definition prefixed t (sts : list State) (sps : list (Step State World))
    (r : Result State World (Locals State World))
    : Result State World (Locals State World) :=
  {| outcome :=
       match outcome r with
       | Ok v => Ok {| executing := executing v;
                       state_list := sts ++ state_list v;
                       step_list := sps ++ step_list v |}
       | Raise e => Raise e
       end;
     final_world := final_world r;
     trace := t ++ trace r |}.

(** The loop over [steps], begun with nothing collected. *)
Definition sweep (frm to : option string) ex (steps : list (Step State World))
    : M (Locals State World) :=
  for_each steps (body frm to) (fresh ex).

(** A step that returns a state whatever the world it is started in. *)
Definition succeeds s : Prop := ∀ w, failure_of (start s w).1 = None.

(** The steps the loop starts when none of them raises: the flag
    [executing] followed through the list. *)
Fixpoint window frm to ex steps : list (Step State World) :=
  match steps with
  | [] => []
  | s :: rest =>
      if is_id frm (id s) || ex
      then s :: window frm to (negb (is_id to (id s))) rest
      else window frm to false rest
  end.

(** The message [run] logs for a step it skips. *)
Definition skip_message s : string :=
  "Skipping step '" +:+ name s +:+ "'…".

(** The messages passed to [log], in order. *)
Definition logged t : list string :=
  omap (λ ev, match ev with ELog msg => Some msg | _ => None end) t.

End Notions.

(** ** The progress tracker *)

(** Modelled from the spec: [set_max_stage_count], [start_stage] and
    [end_stage] belong to the [Flow] base class in openlane/flows/flow.py,
    which is not part of this module.  The tracker keeps a stage ordinal, a
    maximum stage count and the name of the open stage; closing a stage
    advances the ordinal unless it is asked not to. *)
Record Progress : Type := {
  ordinal : nat;
  max_stage : nat;
  current_stage : option string;
}.

Definition progress_step {State World} (p : Progress) (ev : Event State World)
    : Progress :=
  match ev with
  | ESetMaxStageCount n =>
      {| ordinal := ordinal p; max_stage := n; current_stage := current_stage p |}
  | EStartStage nm =>
      {| ordinal := ordinal p; max_stage := max_stage p; current_stage := Some nm |}
  | EEndStage no_increment_ordinal =>
      {| ordinal := if no_increment_ordinal then ordinal p else S (ordinal p);
         max_stage := max_stage p;
         current_stage := None |}
  | _ => p
  end.

Definition progress_after {State World} (t : list (Event State World))
    (p : Progress) : Progress :=
  fold_left progress_step t p.

(** How an iteration of the loop ended. *)
Inductive StageFate : Type := Skipped | Completed | Aborted.

(** The progress calls of an iteration, by its fate. *)
Definition stage_calls {State World} (nm : string) (f : StageFate)
    : list (Event State World) :=
  match f with
  | Skipped => [EStartStage nm; EEndStage true]
  | Completed => [EStartStage nm; EEndStage false]
  | Aborted => [EStartStage nm]
  end.

(** The number of iterations that completed their step. *)
Fixpoint completed (fates : list StageFate) : nat :=
  match fates with
  | [] => 0
  | Completed :: fates' => S (completed fates')
  | _ :: fates' => completed fates'
  end.

(** ** Running examples *)

Module Examples.

(** States and worlds are numbers; the world is the number of the last
    state a step produced, and a step that succeeds produces the next. *)
Definition next_state (w : nat) : StartResult nat * nat := (Returns (S w), S w).

Definition Synthesis : Step nat nat :=
  {| id := "Yosys.Synthesis"; name := "Synthesis"; start := next_state |}.
Definition Placement : Step nat nat :=
  {| id := "OpenROAD.Placement"; name := "Placement"; start := next_state |}.
Definition Routing : Step nat nat :=
  {| id := "OpenROAD.Routing"; name := "Routing"; start := next_state |}.

(** A step that finds its input missing, and one whose tool fails. *)
Definition NoInput : Step nat nat :=
  {| id := "Odb.Check"; name := "Check";
     start := λ w, (RaisesMissingInputError "no DEF in state", w) |}.
Definition Crash : Step nat nat :=
  {| id := "Magic.DRC"; name := "DRC";
     start := λ w, (RaisesCalledProcessError "magic returned 1", w) |}.

Definition Classic : SequentialFlow nat nat :=
  {| flow_name := "Classic"; Steps := [Synthesis; Placement; Routing] |}.

Definition no_kwargs : gmap string nat := ∅.

(** A flow in which the second step finds its input missing. *)
Definition Broken : SequentialFlow nat nat :=
  {| flow_name := "Broken"; Steps := [Synthesis; NoInput; Routing] |}.


(** A flow of one step. *)
Definition one (impl : Step nat nat) : SequentialFlow nat nat :=
  {| flow_name := "One"; Steps := [impl] |}.

Definition registry : gmap string (Step nat nat) :=
  <[id Synthesis := Synthesis]> (<[id Routing := Routing]> ∅).



(** A flow whose signoff tool fails before the last step. *)
Definition Signoff : SequentialFlow nat nat :=
  {| flow_name := "Signoff"; Steps := [Synthesis; Placement; Crash; Routing] |}.

End Examples.

(** * Properties *)

Close Scope string_scope.

(** ** The loop of [run], one iteration at a time *)

Section Loop.
Context {State World : Type}.
Implicit Types (s : Step State World) (w : World) (ex : bool).
Implicit Types (vars : Locals State World) (t : list (Event State World)).

Lemma prefixed_prefixed t1 t2 sts1 sts2 sps1 sps2 r :
  prefixed t1 sts1 sps1 (prefixed t2 sts2 sps2 r)
  = prefixed (t1 ++ t2) (sts1 ++ sts2) (sps1 ++ sps2) r.
Proof.
  unfold prefixed; simpl. destruct (outcome r); simpl;
    by rewrite ?app_assoc.
Qed.

Lemma body_frame frm to vars s w :
  body frm to vars s w
  = prefixed [] (state_list vars) (step_list vars)
      (body frm to (fresh (executing vars)) s w).
Proof.
  destruct vars as [ex sts sps].
  unfold body, prefixed, bind, start_stage, log, end_stage, emit, ret,
    raise, call_start, fresh; simpl.
  destruct (is_id frm (id s)), ex; simpl;
    try (destruct (start s w) as [[st|e|e] w']; simpl);
    by rewrite ?app_nil_r.
Qed.

Lemma for_each_frame frm to steps vars w :
  for_each steps (body frm to) vars w
  = prefixed [] (state_list vars) (step_list vars)
      (sweep frm to (executing vars) steps w).
Proof.
  unfold sweep. revert vars w.
  induction steps as [|s rest IH]; intros vars w.
  - destruct vars as [ex sts sps]. unfold prefixed; simpl.
    by rewrite !app_nil_r.
  - simpl. unfold bind.
    rewrite (body_frame frm to vars).
    destruct (body frm to (fresh (executing vars)) s w) as [[v|e] w1 t1];
      unfold prefixed at 1 2 3; simpl; [|by unfold prefixed].
    rewrite (IH v), (IH {| executing := executing v |}); simpl.
    unfold prefixed; simpl.
    destruct (outcome (for_each rest (body frm to) (fresh (executing v)) w1));
      simpl; by rewrite ?app_assoc.
Qed.

Lemma sweep_nil frm to ex w :
  sweep frm to ex ([] : list (Step State World)) w
  = {| outcome := Ok (fresh ex); final_world := w; trace := [] |}.
Proof. done. Qed.

(** The three ways an iteration can go. *)
Lemma body_skip frm to ex s w :
  is_id frm (id s) || ex = false →
  body frm to (fresh ex) s w
  = {| outcome := Ok (fresh false);
       final_world := w;
       trace := [EStartStage (name s);
                 ELog ("Skipping step '" +:+ name s +:+ "'…");
                 EEndStage true] |}.
Proof.
  intros [Hf ->]%orb_false_iff.
  unfold body, bind, start_stage, log, end_stage, emit, ret; simpl.
  by rewrite Hf.
Qed.

Lemma body_returns frm to ex s w st w' :
  is_id frm (id s) || ex = true →
  start s w = (Returns st, w') →
  body frm to (fresh ex) s w
  = {| outcome := Ok {| executing := negb (is_id to (id s));
                        state_list := [st];
                        step_list := [s] |};
       final_world := w';
       trace := [EStartStage (name s); EStart s (Returns st);
                 EEndStage false] |}.
Proof.
  intros Hex Hst.
  unfold body, bind, start_stage, end_stage, emit, ret, call_start; simpl.
  replace (if is_id frm (id s) then true else ex) with true
    by (by destruct (is_id frm (id s)), ex).
  simpl. rewrite Hst; simpl. by destruct (is_id to (id s)).
Qed.

Lemma body_raises frm to ex s w r w' e :
  is_id frm (id s) || ex = true →
  start s w = (r, w') →
  failure_of r = Some e →
  body frm to (fresh ex) s w
  = {| outcome := Raise e;
       final_world := w';
       trace := [EStartStage (name s); EStart s r] |}.
Proof.
  intros Hex Hst Hr.
  unfold body, bind, start_stage, end_stage, emit, ret, raise, call_start;
    simpl.
  replace (if is_id frm (id s) then true else ex) with true
    by (by destruct (is_id frm (id s)), ex).
  simpl. rewrite Hst; simpl.
  destruct r; simpl in *; by simplify_eq.
Qed.

(** The loop, by the way its first iteration goes. *)
Lemma sweep_skip frm to ex s rest w :
  is_id frm (id s) || ex = false →
  sweep frm to ex (s :: rest) w
  = prefixed [EStartStage (name s);
              ELog ("Skipping step '" +:+ name s +:+ "'…");
              EEndStage true] [] []
      (sweep frm to false rest w).
Proof.
  intros Hex. unfold sweep at 1. cbn [for_each]. unfold bind.
  rewrite (body_skip _ _ _ _ _ Hex). cbn [outcome final_world trace].
  rewrite for_each_frame. unfold prefixed; simpl.
  by destruct (outcome (sweep frm to false rest w)).
Qed.

Lemma sweep_returns frm to ex s rest w st w' :
  is_id frm (id s) || ex = true →
  start s w = (Returns st, w') →
  sweep frm to ex (s :: rest) w
  = prefixed [EStartStage (name s); EStart s (Returns st); EEndStage false]
      [st] [s]
      (sweep frm to (negb (is_id to (id s))) rest w').
Proof.
  intros Hex Hst. unfold sweep at 1. cbn [for_each]. unfold bind.
  rewrite (body_returns _ _ _ _ _ _ _ Hex Hst).
  cbn [outcome final_world trace].
  rewrite for_each_frame. unfold prefixed; simpl.
  by destruct (outcome (sweep frm to _ rest w')).
Qed.

Lemma sweep_raises frm to ex s rest w r w' e :
  is_id frm (id s) || ex = true →
  start s w = (r, w') →
  failure_of r = Some e →
  sweep frm to ex (s :: rest) w
  = {| outcome := Raise e;
       final_world := w';
       trace := [EStartStage (name s); EStart s r] |}.
Proof.
  intros Hex Hst Hr. unfold sweep. cbn [for_each]. unfold bind.
  by rewrite (body_raises _ _ _ _ _ _ _ _ Hex Hst Hr).
Qed.

(** [run], in terms of its loop. *)
Lemma run_sweep {Value} (self : SequentialFlow State World) (S0 : State)
    frm to (kwargs : gmap string Value) w :
  run self S0 frm to kwargs w
  = let r := sweep frm to (is_none frm) (Steps self) w in
    {| outcome :=
         match outcome r with
         | Ok v => Ok (S0 :: state_list v, step_list v)
         | Raise e => Raise e
         end;
       final_world := final_world r;
       trace :=
         ESetMaxStageCount (length (Steps self)) :: ELog "Starting…"
         :: trace r
         ++ match outcome r with
            | Ok _ => [ESuccess "Flow complete."]
            | Raise _ => []
            end |}.
Proof.
  unfold run. unfold bind at 1 2 3.
  unfold set_max_stage_count, log, emit. cbn [outcome final_world trace].
  rewrite for_each_frame. cbn [executing state_list step_list].
  unfold prefixed, bind, success, emit, ret; simpl.
  destruct (outcome (sweep _ _ _ _ _)); simpl; by rewrite ?app_nil_r.
Qed.

End Loop.

(** ** What the loop leaves behind *)

Section Sweep.
Context {State World : Type}.
Variables frm to : option string.
Implicit Types (s : Step State World) (w : World) (ex : bool).
Implicit Types (steps : list (Step State World)).
Implicit Types (t : list (Event State World)).

(** Reasoning on the loop by cases on each iteration. *)
Lemma sweep_cases
    (P : bool → list (Step State World) → World
         → Result State World (Locals State World) → Prop) :
  (∀ ex w, P ex [] w {| outcome := Ok (fresh ex); final_world := w; trace := [] |}) →
  (∀ ex s rest w,
      is_id frm (id s) || ex = false →
      P false rest w (sweep frm to false rest w) →
      P ex (s :: rest) w
        (prefixed [EStartStage (name s);
                   ELog ("Skipping step '" +:+ name s +:+ "'…");
                   EEndStage true] [] []
           (sweep frm to false rest w))) →
  (∀ ex s rest w st w',
      is_id frm (id s) || ex = true →
      start s w = (Returns st, w') →
      P (negb (is_id to (id s))) rest w'
        (sweep frm to (negb (is_id to (id s))) rest w') →
      P ex (s :: rest) w
        (prefixed [EStartStage (name s); EStart s (Returns st);
                   EEndStage false] [st] [s]
           (sweep frm to (negb (is_id to (id s))) rest w'))) →
  (∀ ex s rest w r w' e,
      is_id frm (id s) || ex = true →
      start s w = (r, w') →
      failure_of r = Some e →
      P ex (s :: rest) w
        {| outcome := Raise e; final_world := w';
           trace := [EStartStage (name s); EStart s r] |}) →
  ∀ ex steps w, P ex steps w (sweep frm to ex steps w).
Proof.
  intros Hnil Hskip Hret Hraise ex steps. revert ex.
  induction steps as [|s rest IH]; intros ex w.
  - rewrite sweep_nil. apply Hnil.
  - destruct (is_id frm (id s) || ex) eqn:Hex.
    + destruct (start s w) as [r w'] eqn:Hst.
      destruct (failure_of r) as [e|] eqn:Hr.
      * rewrite (sweep_raises _ _ _ _ _ _ _ _ _ Hex Hst Hr). by eapply Hraise.
      * destruct r as [st| |]; try done.
        rewrite (sweep_returns _ _ _ _ _ _ _ _ Hex Hst). by apply Hret.
    + rewrite (sweep_skip _ _ _ _ _ _ Hex). by apply Hskip.
Qed.

Lemma clean_nil : clean ([] : list (Event State World)).
Proof. intros s r Hin. by apply elem_of_nil in Hin. Qed.

Lemma clean_cons ev t :
  match ev with EStart _ r => failure_of r = None | _ => True end →
  clean t → clean (ev :: t).
Proof.
  intros Hev Ht s r [<-|Hin]%elem_of_cons; [done|]. by eapply Ht.
Qed.

Lemma clean_app t1 t2 : clean t1 → clean t2 → clean (t1 ++ t2).
Proof.
  intros H1 H2 s r [?|?]%elem_of_app; [by eapply H1|by eapply H2].
Qed.

(** When the loop completes: what it collected, read off the trace. *)
Lemma sweep_ok ex steps w v :
  outcome (sweep frm to ex steps w) = Ok v →
  state_list v = returned_states (trace (sweep frm to ex steps w))
  ∧ step_list v = started_steps (trace (sweep frm to ex steps w))
  ∧ length (state_list v) = length (step_list v)
  ∧ step_list v = select (stage_mask (trace (sweep frm to ex steps w))) steps
  ∧ length (stage_mask (trace (sweep frm to ex steps w))) = length steps
  ∧ step_list v `sublist_of` steps
  ∧ clean (trace (sweep frm to ex steps w)).
Proof.
  revert v. pattern ex, steps, w, (sweep frm to ex steps w).
  apply sweep_cases; clear ex steps w.
  - intros ex w v [= <-]; simpl. repeat split; try done. apply clean_nil.
  - intros ex s rest w Hex IH v. unfold prefixed; simpl.
    destruct (outcome (sweep frm to false rest w)) as [v'|] eqn:Ho; [|done].
    intros [= <-]; simpl.
    destruct (IH v' eq_refl) as (?&?&?&?&?&?&?).
    repeat split; try done; try lia.
    + by apply sublist_cons.
    + by repeat apply clean_cons.
  - intros ex s rest w st w' Hex Hst IH v. unfold prefixed; simpl.
    destruct (outcome (sweep frm to _ rest w')) as [v'|] eqn:Ho; [|done].
    intros [= <-]; simpl.
    destruct (IH v' eq_refl) as (?&?&?&?&?&?&?).
    repeat split; try congruence; try lia.
    + by apply sublist_skip.
    + by repeat apply clean_cons.
  - done.
Qed.

(** When the loop raises: the call of [start] that raised is the last
    thing that happened, and it is the only one that raised. *)
Lemma sweep_raise ex steps w e :
  outcome (sweep frm to ex steps w) = Raise e →
  ∃ pre s r,
    trace (sweep frm to ex steps w) = pre ++ [EStart s r]
    ∧ clean pre ∧ failure_of r = Some e.
Proof.
  revert e. pattern ex, steps, w, (sweep frm to ex steps w).
  apply sweep_cases; clear ex steps w.
  - done.
  - intros ex s rest w Hex IH e. unfold prefixed; simpl.
    destruct (outcome (sweep frm to false rest w)) as [v'|e'] eqn:Ho; [done|].
    intros [= <-]. destruct (IH e' eq_refl) as (pre&s'&r&->&Hpre&Hr).
    eexists (_ :: _ :: _ :: pre), s', r. split; [done|].
    split; [|done]. by repeat apply clean_cons.
  - intros ex s rest w st w' Hex Hst IH e. unfold prefixed; simpl.
    destruct (outcome (sweep frm to _ rest w')) as [v'|e'] eqn:Ho; [done|].
    intros [= <-]. destruct (IH e' eq_refl) as (pre&s'&r&->&Hpre&Hr).
    eexists (_ :: _ :: _ :: pre), s', r. split; [done|].
    split; [|done]. by repeat apply clean_cons.
  - intros ex s rest w r w' e Hex Hst Hr e' [= <-]; simpl.
    exists [EStartStage (name s)], s, r. split; [done|].
    split; [|done]. apply clean_cons; [done|apply clean_nil].
Qed.

(** Every call of [start] was made on the world its predecessors left. *)
Lemma sweep_replays ex steps w :
  replays (trace (sweep frm to ex steps w)) w
    (final_world (sweep frm to ex steps w)).
Proof.
  pattern ex, steps, w, (sweep frm to ex steps w).
  apply sweep_cases; clear ex steps w; simpl; try done.
  - intros ex s rest w st w' Hex Hst IH. by rewrite Hst.
  - intros ex s rest w r w' e Hex Hst Hr. by rewrite Hst.
Qed.

End Sweep.

(** ** Which steps run *)

Section Window.
Context {State World : Type}.
Implicit Types (s : Step State World) (w : World) (ex : bool).
Implicit Types (steps pre rest : list (Step State World)).
Implicit Types (frm to : option string).

Lemma is_id_Some x i : is_id (Some x) i = true ↔ x = i.
Proof. apply String.eqb_eq. Qed.

Lemma is_id_Some_false x i : is_id (Some x) i = false ↔ x ≠ i.
Proof. apply String.eqb_neq. Qed.

Lemma is_id_refl i : is_id (Some i) i = true.
Proof. by apply is_id_Some. Qed.

Lemma sweep_window frm to ex steps w v :
  outcome (sweep frm to ex steps w) = Ok v →
  step_list v = window frm to ex steps.
Proof.
  revert v. pattern ex, steps, w, (sweep frm to ex steps w).
  apply sweep_cases; clear ex steps w.
  - by intros ex w v [= <-].
  - intros ex s rest w Hex IH v. unfold prefixed; simpl. rewrite Hex.
    destruct (outcome (sweep frm to false rest w)) as [v'|]; [|done].
    intros [= <-]; simpl. by apply IH.
  - intros ex s rest w st w' Hex Hst IH v. unfold prefixed; simpl.
    rewrite Hex.
    destruct (outcome (sweep frm to _ rest w')) as [v'|]; [|done].
    intros [= <-]; simpl. f_equal. by apply IH.
  - done.
Qed.

Lemma sweep_succeeds frm to ex steps w :
  (∀ s, s ∈ steps → succeeds s) →
  ∃ v, outcome (sweep frm to ex steps w) = Ok v.
Proof.
  pattern ex, steps, w, (sweep frm to ex steps w).
  apply sweep_cases; clear ex steps w.
  - intros; by eexists.
  - intros ex s rest w Hex IH Hall. unfold prefixed; simpl.
    destruct IH as [v ->]; [|by eexists].
    intros s' Hs'. apply Hall. by right.
  - intros ex s rest w st w' Hex Hst IH Hall. unfold prefixed; simpl.
    destruct IH as [v ->]; [|by eexists].
    intros s' Hs'. apply Hall. by right.
  - intros ex s rest w r w' e Hex Hst Hr Hall.
    specialize (Hall s (list_elem_of_here _ _) w).
    rewrite Hst in Hall; simpl in Hall. congruence.
Qed.

(** While the flag is off and no id is [frm], nothing is started and
    nothing changes. *)
Lemma sweep_closed frm to steps w :
  (∀ s, s ∈ steps → is_id frm (id s) = false) →
  outcome (sweep frm to false steps w) = Ok (fresh false)
  ∧ final_world (sweep frm to false steps w) = w
  ∧ started_steps (trace (sweep frm to false steps w)) = [].
Proof.
  revert w. induction steps as [|s rest IH]; intros w Hall; [done|].
  rewrite sweep_skip.
  - destruct (IH w) as (Ho & Hw & Ht).
    { intros s' Hs'. apply Hall. by right. }
    unfold prefixed; simpl. by rewrite Ho.
  - rewrite Hall; [done|by left].
Qed.

Lemma window_open frm to steps :
  (∀ s, s ∈ steps → is_id to (id s) = false) →
  window frm to true steps = steps.
Proof.
  induction steps as [|s rest IH]; intros Hall; [done|]; simpl.
  rewrite orb_true_r, Hall by (by left); simpl.
  f_equal. apply IH. intros s' Hs'. apply Hall. by right.
Qed.





End Window.

(** ** The result of [run] *)

Section Run.
Context {State World Value : Type}.
Implicit Types (self : SequentialFlow State World) (s : Step State World).
Implicit Types (initial_state : State) (frm to : option string).
Implicit Types (kwargs : gmap string Value) (w : World).

Lemma stage_mask_run self initial_state frm to kwargs w :
  stage_mask (trace (run self initial_state frm to kwargs w))
  = stage_mask (trace (sweep frm to (is_none frm) (Steps self) w)).
Proof.
  rewrite run_sweep; simpl. unfold stage_mask; simpl.
  rewrite omap_app.
  destruct (outcome (sweep _ _ _ _ _)); simpl; by rewrite app_nil_r.
Qed.

Lemma started_steps_run self initial_state frm to kwargs w :
  started_steps (trace (run self initial_state frm to kwargs w))
  = started_steps (trace (sweep frm to (is_none frm) (Steps self) w)).
Proof.
  rewrite run_sweep; simpl. unfold started_steps; simpl.
  rewrite omap_app.
  destruct (outcome (sweep _ _ _ _ _)); simpl; by rewrite app_nil_r.
Qed.

Lemma returned_states_run self initial_state frm to kwargs w :
  returned_states (trace (run self initial_state frm to kwargs w))
  = returned_states (trace (sweep frm to (is_none frm) (Steps self) w)).
Proof.
  rewrite run_sweep; simpl. unfold returned_states; simpl.
  rewrite omap_app.
  destruct (outcome (sweep _ _ _ _ _)); simpl; by rewrite app_nil_r.
Qed.

(** When every step succeeds, [run] returns, and it returns the steps of
    the window. *)
Lemma run_window self initial_state frm to kwargs w :
  Forall succeeds (Steps self) →
  ∃ states,
    outcome (run self initial_state frm to kwargs w)
    = Ok (states, window frm to (is_none frm) (Steps self))
    ∧ length states = S (length (window frm to (is_none frm) (Steps self))).
Proof.
  intros Hall. rewrite run_sweep; simpl.
  destruct (sweep_succeeds frm to (is_none frm) (Steps self) w) as [v Hv].
  { by apply Forall_forall. }
  rewrite Hv. exists (initial_state :: state_list v).
  rewrite <- (sweep_window _ _ _ _ _ _ Hv).
  split; [done|]. simpl. f_equal.
  by destruct (sweep_ok _ _ _ _ _ _ Hv) as (_&_&?&_).
Qed.


(** C1. Whenever [run] returns, the list of states is one longer than the
    list of executed steps and begins with the caller's initial state; the
    executed steps are a subsequence of [Steps], in the order of [Steps]:
    exactly the steps at the positions whose stage was closed by the
    executing branch, none of those closed by the skipping branch.  With
    no [frm] and no [to] and steps that all succeed, [run] returns all
    the steps, in order, and one state more than there are steps. *)
Theorem run_returns_one_state_per_executed_step
    self initial_state frm to kwargs w :
  (∀ states executed,
      outcome (run self initial_state frm to kwargs w) = Ok (states, executed) →
      length states = 1 + length executed
      ∧ head states = Some initial_state
      ∧ executed `sublist_of` Steps self
      ∧ executed
        = select (stage_mask (trace (run self initial_state frm to kwargs w)))
            (Steps self)
      ∧ length (stage_mask (trace (run self initial_state frm to kwargs w)))
        = length (Steps self))
  ∧ (frm = None → to = None → Forall succeeds (Steps self) →
     ∃ states,
       outcome (run self initial_state frm to kwargs w)
       = Ok (states, Steps self)
       ∧ length states = length (Steps self) + 1).
Proof.
  split.
  - intros states executed. rewrite stage_mask_run, run_sweep; simpl.
    destruct (outcome (sweep _ _ _ _ _)) as [v|] eqn:Hv; [|done].
    intros [= <- <-].
    destruct (sweep_ok _ _ _ _ _ _ Hv) as (_&_&Hlen&Hsel&Hmask&Hsub&_).
    simpl. by rewrite Hlen.
  - intros -> -> Hall.
    destruct (run_window self initial_state None None kwargs w Hall)
      as (states & Ho & Hlen).
    rewrite window_open in Ho, Hlen by done.
    exists states. split; [done|lia].
Qed.

(** C6. With a [frm] that is the id of no step, [run] starts no step: it
    returns the initial state alone and no executed step, and leaves the
    world as it found it. *)
Theorem run_from_unknown_id_runs_nothing self initial_state f to kwargs w :
  (∀ s, s ∈ Steps self → id s ≠ f) →
  outcome (run self initial_state (Some f) to kwargs w)
  = Ok ([initial_state], [])
  ∧ started_steps (trace (run self initial_state (Some f) to kwargs w)) = []
  ∧ final_world (run self initial_state (Some f) to kwargs w) = w.
Proof.
  intros Hno. rewrite started_steps_run, run_sweep; simpl.
  destruct (sweep_closed (Some f) to (Steps self) w) as (Ho & Hw & Ht).
  { intros s Hs. apply is_id_Some_false. intros ->. by apply (Hno s). }
  by rewrite Ho, Hw, Ht.
Qed.



End Run.

(** ** Progress stages *)

Section Stages.
Context {State World Value : Type}.
Implicit Types (self : SequentialFlow State World) (s : Step State World).
Implicit Types (frm to : option string) (w : World) (p : Progress).

Lemma sweep_stages frm to ex (steps : list (Step State World)) w :
  ∃ fates : list StageFate,
    progress_calls (trace (sweep frm to ex steps w))
    = concat (zip_with stage_calls (name <$> steps) fates)
    ∧ match outcome (sweep frm to ex steps w) with
      | Ok v =>
          length fates = length steps
          ∧ (Aborted ∉ fates)
          ∧ completed fates = length (step_list v)
      | Raise _ =>
          ∃ before, fates = before ++ [Aborted]
                    ∧ (Aborted ∉ before)
                    ∧ length fates ≤ length steps
      end
    ∧ ∀ p,
        ordinal (progress_after (trace (sweep frm to ex steps w)) p)
        = ordinal p + completed fates
        ∧ max_stage (progress_after (trace (sweep frm to ex steps w)) p)
          = max_stage p.
Proof.
  pattern ex, steps, w, (sweep frm to ex steps w).
  apply sweep_cases; clear ex steps w.
  - intros ex w. exists []. simpl. repeat split; try done; try lia.
    apply not_elem_of_nil.
  - intros ex s rest w Hex (fates & Hcalls & Hout & Hord).
    exists (Skipped :: fates). unfold prefixed, progress_calls in *; simpl.
    split; [do 2 f_equal; exact Hcalls|]. split.
    + destruct (outcome (sweep frm to false rest w)).
      * destruct Hout as (Hlen & Hno & Hcount).
        repeat split; [by rewrite Hlen| |done].
        by intros [?|?]%elem_of_cons.
      * destruct Hout as (before & -> & Hno & Hlen).
        exists (Skipped :: before). repeat split; [|simpl in *; lia].
        by intros [?|?]%elem_of_cons.
    + intros p. unfold progress_after in *; simpl.
      by destruct (Hord {| ordinal := ordinal p; max_stage := max_stage p;
                           current_stage := None |}).
  - intros ex s rest w st w' Hex Hst (fates & Hcalls & Hout & Hord).
    exists (Completed :: fates). unfold prefixed, progress_calls in *; simpl.
    split; [do 2 f_equal; exact Hcalls|]. split.
    + destruct (outcome (sweep frm to _ rest w')).
      * destruct Hout as (Hlen & Hno & Hcount).
        repeat split; [by rewrite Hlen| |simpl; by rewrite Hcount].
        by intros [?|?]%elem_of_cons.
      * destruct Hout as (before & -> & Hno & Hlen).
        exists (Completed :: before). repeat split; [|simpl in *; lia].
        by intros [?|?]%elem_of_cons.
    + intros p. unfold progress_after in *; simpl.
      destruct (Hord {| ordinal := S (ordinal p); max_stage := max_stage p;
                        current_stage := None |}) as [-> ->]; simpl.
      split; [lia|done].
  - intros ex s rest w r w' e Hex Hst Hr.
    exists [Aborted]. simpl. split; [by rewrite zip_with_nil_r|]. split.
    + exists []. repeat split; [apply not_elem_of_nil|lia].
    + intros p. unfold progress_after; simpl. split; [lia|done].
Qed.

(** C3, amended. [run] calls [set_max_stage_count] once, with the number
    of steps, before any stage is opened.  After that, the calls to the
    progress tracker are, step by step in the order of [Steps]: one
    [start_stage] and one [end_stage] that does not advance the ordinal
    for a step that is skipped; one [start_stage] and one [end_stage] that
    advances the ordinal by one for a step that runs and returns; and a
    [start_stage] alone for a step that raises, which is the last
    iteration.  A run that returns has gone through every step without
    aborting and the ordinal has advanced by the number of executed
    steps. *)
Theorem run_pairs_stage_calls_until_a_step_raises
    self (initial_state : State) frm to (kwargs : gmap string Value) w :
  ∃ fates : list StageFate,
    progress_calls (trace (run self initial_state frm to kwargs w))
    = ESetMaxStageCount (length (Steps self))
      :: concat (zip_with stage_calls (name <$> Steps self) fates)
    ∧ match outcome (run self initial_state frm to kwargs w) with
      | Ok (_, executed) =>
          length fates = length (Steps self)
          ∧ (Aborted ∉ fates)
          ∧ completed fates = length executed
      | Raise _ =>
          ∃ before, fates = before ++ [Aborted]
                    ∧ (Aborted ∉ before)
                    ∧ length fates ≤ length (Steps self)
      end
    ∧ ∀ p,
        ordinal (progress_after (trace (run self initial_state frm to kwargs w)) p)
        = ordinal p + completed fates
        ∧ max_stage (progress_after (trace (run self initial_state frm to kwargs w)) p)
          = length (Steps self).
Proof.
  destruct (sweep_stages frm to (is_none frm) (Steps self) w)
    as (fates & Hcalls & Hout & Hord).
  exists fates. rewrite run_sweep; simpl.
  split; [|split].
  - unfold progress_calls in *; simpl. rewrite omap_app, Hcalls.
    destruct (outcome (sweep _ _ _ _ _)); simpl; by rewrite app_nil_r.
  - by destruct (outcome (sweep _ _ _ _ _)).
  - intros p. unfold progress_after in *; simpl. rewrite fold_left_app.
    destruct (Hord {| ordinal := ordinal p;
                      max_stage := length (Steps self);
                      current_stage := current_stage p |}) as [Ho Hm].
    destruct (outcome (sweep _ _ _ _ _)); simpl; by rewrite ?Ho, ?Hm.
Qed.

End Stages.

(** ** Failures and the states handed back *)

Section Failures.
Context {State World Value : Type}.
Implicit Types (self : SequentialFlow State World) (s : Step State World).
Implicit Types (frm to : option string) (w : World).
Implicit Types (t pre post : list (Event State World)).

(** In a trace that ends with the only call that raised, a call that
    raised is that last one. *)
Lemma clean_then_last t last pre s (r : StartResult State) post :
  clean t →
  t ++ [last] = pre ++ EStart s r :: post →
  failure_of r ≠ None →
  post = [] ∧ pre = t.
Proof.
  intros Hclean Heq Hr.
  destruct post as [|ev post _] using rev_ind.
  - apply app_inj_tail in Heq as [-> _]. done.
  - rewrite app_comm_cons, app_assoc in Heq.
    apply app_inj_tail in Heq as [-> _].
    destruct Hr. apply (Hclean s r).
    apply elem_of_app. right. by left.
Qed.

Lemma failure_of_FlowException (r : StartResult State) msg :
  failure_of r = Some (FlowException msg) ↔ r = RaisesMissingInputError msg.
Proof. destruct r; simpl; split; congruence. Qed.

Lemma failure_of_FlowError (r : StartResult State) msg :
  failure_of r = Some (FlowError msg) ↔ r = RaisesCalledProcessError msg.
Proof. destruct r; simpl; split; congruence. Qed.

(** The trace of [run] has a call of [start] that raised exactly when
    [run] raises; the exception is the one that goes with what [start]
    raised, and that call ends the trace. *)
Lemma run_raise_trace self (initial_state : State) frm to
    (kwargs : gmap string Value) w :
  match outcome (run self initial_state frm to kwargs w) with
  | Ok _ => clean (trace (run self initial_state frm to kwargs w))
  | Raise e =>
      ∃ pre s r,
        trace (run self initial_state frm to kwargs w) = pre ++ [EStart s r]
        ∧ clean pre ∧ failure_of r = Some e
  end.
Proof.
  rewrite run_sweep; simpl.
  destruct (outcome (sweep _ _ _ _ _)) as [v|e] eqn:Ho.
  - destruct (sweep_ok _ _ _ _ _ _ Ho) as (_&_&_&_&_&_&Hclean).
    do 2 (apply clean_cons; [done|]).
    apply clean_app; [done|]. apply clean_cons; [done|apply clean_nil].
  - destruct (sweep_raise _ _ _ _ _ _ Ho) as (pre & s & r & -> & Hpre & Hr).
    eexists (_ :: _ :: pre), s, r. rewrite app_nil_r.
    split; [done|]. split; [|done]. by do 2 (apply clean_cons; [done|]).
Qed.

Lemma replays_app t1 t2 w w1 w2 :
  replays t1 w w1 → replays t2 w1 w2 → replays (t1 ++ t2) w w2.
Proof.
  revert w. induction t1 as [|ev t1 IH]; intros w; simpl.
  - by intros ->.
  - destruct ev; try apply IH. intros [? ?] ?. split; [done|]. by apply IH.
Qed.

Lemma run_replays self (initial_state : State) frm to
    (kwargs : gmap string Value) w :
  replays (trace (run self initial_state frm to kwargs w)) w
    (final_world (run self initial_state frm to kwargs w)).
Proof.
  rewrite run_sweep; simpl.
  eapply replays_app; [apply sweep_replays|].
  by destruct (outcome (sweep _ _ _ _ _)).
Qed.

(** C4. [run] raises [FlowException] exactly when a step it started
    raised [MissingInputError], and [FlowError] exactly when a step it
    started raised [CalledProcessError], with the same message.  The call
    of [start] that raised is the last thing [run] did: no stage is
    opened or closed and no step is started after it, and no earlier call
    of [start] raised.  Each call of [start] was made on the world the
    calls before it left, and the world [run] leaves is the one the last
    call left. *)
Theorem run_raises_exactly_when_a_started_step_raises
    self (initial_state : State) frm to (kwargs : gmap string Value) w :
  (∀ msg,
      outcome (run self initial_state frm to kwargs w)
      = Raise (FlowException msg)
      ↔ ∃ s, EStart s (RaisesMissingInputError msg)
             ∈ trace (run self initial_state frm to kwargs w))
  ∧ (∀ msg,
      outcome (run self initial_state frm to kwargs w)
      = Raise (FlowError msg)
      ↔ ∃ s, EStart s (RaisesCalledProcessError msg)
             ∈ trace (run self initial_state frm to kwargs w))
  ∧ (∀ pre s r post,
      trace (run self initial_state frm to kwargs w)
      = pre ++ EStart s r :: post →
      failure_of r ≠ None →
      post = [] ∧ clean pre)
  ∧ replays (trace (run self initial_state frm to kwargs w)) w
      (final_world (run self initial_state frm to kwargs w)).
Proof.
  pose proof (run_raise_trace self initial_state frm to kwargs w) as Hshape.
  split; [|split; [|split]].
  - intros msg. destruct (outcome (run _ _ _ _ _ _)) as [v|e].
    + split; [done|]. intros [s Hin]. by apply Hshape in Hin.
    + destruct Hshape as (pre & s & r & -> & Hpre & Hr). split.
      * intros [= ->]. apply failure_of_FlowException in Hr as ->.
        exists s. apply elem_of_app. right. by left.
      * intros [s' [Hin|Hin]%elem_of_app].
        { by apply Hpre in Hin. }
        apply list_elem_of_singleton in Hin as [= <- <-].
        simpl in Hr. congruence.
  - intros msg. destruct (outcome (run _ _ _ _ _ _)) as [v|e].
    + split; [done|]. intros [s Hin]. by apply Hshape in Hin.
    + destruct Hshape as (pre & s & r & -> & Hpre & Hr). split.
      * intros [= ->]. apply failure_of_FlowError in Hr as ->.
        exists s. apply elem_of_app. right. by left.
      * intros [s' [Hin|Hin]%elem_of_app].
        { by apply Hpre in Hin. }
        apply list_elem_of_singleton in Hin as [= <- <-].
        simpl in Hr. congruence.
  - intros pre s r post Heq Hr.
    destruct (outcome (run _ _ _ _ _ _)) as [v|e].
    + destruct Hr. apply (Hshape s r). rewrite Heq.
      apply elem_of_app. right. by left.
    + destruct Hshape as (pre' & s' & r' & Heq' & Hpre & _).
      rewrite Heq' in Heq.
      by destruct (clean_then_last _ _ _ _ _ _ Hpre Heq Hr) as [-> ->].
  - apply run_replays.
Qed.

(** C5, amended. [run] starts each executed step by calling its [start]
    with no argument: the step is given neither the initial state nor any
    state of the list.  The states [run] returns are the initial state
    followed by the states those calls returned, in order, the executed
    steps are the steps of those calls, and each call was made on the
    world the calls before it left.  So the calls, what they return and
    the world they leave are the same whatever the initial state. *)
Theorem run_appends_what_start_returns
    self (initial_state : State) frm to (kwargs : gmap string Value) w :
  (∀ states executed,
      outcome (run self initial_state frm to kwargs w) = Ok (states, executed) →
      states
      = initial_state
        :: returned_states (trace (run self initial_state frm to kwargs w))
      ∧ executed
        = started_steps (trace (run self initial_state frm to kwargs w)))
  ∧ replays (trace (run self initial_state frm to kwargs w)) w
      (final_world (run self initial_state frm to kwargs w))
  ∧ (∀ other_state : State,
      trace (run self other_state frm to kwargs w)
      = trace (run self initial_state frm to kwargs w)
      ∧ final_world (run self other_state frm to kwargs w)
        = final_world (run self initial_state frm to kwargs w)
      ∧ match outcome (run self other_state frm to kwargs w),
              outcome (run self initial_state frm to kwargs w) with
        | Ok (states', executed'), Ok (states, executed) =>
            tail states' = tail states ∧ executed' = executed
        | Raise e', Raise e => e' = e
        | _, _ => False
        end).
Proof.
  split; [|split].
  - intros states executed.
    rewrite returned_states_run, started_steps_run, run_sweep; simpl.
    destruct (outcome (sweep _ _ _ _ _)) as [v|] eqn:Hv; [|done].
    intros [= <- <-].
    by destruct (sweep_ok _ _ _ _ _ _ Hv) as (-> & -> & _).
  - apply run_replays.
  - intros other_state. rewrite !run_sweep; simpl.
    by destruct (outcome (sweep _ _ _ _ _)).
Qed.

End Failures.

(** ** Building a flow from step ids *)

Section Make.
Context {State World : Type}.
Implicit Types (factory : gmap string (Step State World)).
Implicit Types (step_ids pre post : list string).
Implicit Types (acc : list (Step State World)).

Lemma make_loop_unknown factory pre name post acc :
  (∀ i, i ∈ pre → is_Some (factory !! i)) →
  factory !! name = None →
  make_loop factory (pre ++ name :: post) acc
  = Raise (TypeError ("No step found with id '" +:+ name +:+ "'")).
Proof.
  revert acc. induction pre as [|i pre IH]; intros acc Hpre Hname; simpl.
  - by rewrite Hname.
  - destruct (Hpre i) as [step ->]; [by left|].
    apply IH; [|done]. intros j Hj. apply Hpre. by right.
Qed.

Lemma make_loop_known factory step_ids acc :
  (∀ i, i ∈ step_ids → is_Some (factory !! i)) →
  ∃ steps,
    make_loop factory step_ids acc = Ok (acc ++ steps)
    ∧ Forall2 (λ i step, factory !! i = Some step) step_ids steps.
Proof.
  revert acc. induction step_ids as [|i step_ids IH]; intros acc Hall; simpl.
  - exists []. by rewrite app_nil_r.
  - destruct (Hall i) as [step Hstep]; [by left|]. rewrite Hstep.
    destruct (IH (acc ++ [step])) as (steps & -> & Hsteps).
    { intros j Hj. apply Hall. by right. }
    exists (step :: steps). rewrite <- app_assoc. split; [done|].
    by constructor.
Qed.

(** C8. [make] looks the ids up in order.  At the first id that has no
    step registered it raises [TypeError] with a message that quotes this
    id, and builds no flow; [make] has no access to the world, so no step
    has run.  When every id is registered it returns a flow named
    "Custom Sequential Flow" whose steps are the registered steps of the
    ids, in the order of the ids. *)
Theorem make_resolves_every_id_or_rejects_the_first_unknown
    factory step_ids :
  (∀ pre name post,
      step_ids = pre ++ name :: post →
      (∀ i, i ∈ pre → is_Some (factory !! i)) →
      factory !! name = None →
      make factory step_ids
      = Raise (TypeError ("No step found with id '" +:+ name +:+ "'")))
  ∧ ((∀ i, i ∈ step_ids → is_Some (factory !! i)) →
     ∃ steps,
       make factory step_ids
       = Ok {| flow_name := "Custom Sequential Flow"; Steps := steps |}
       ∧ Forall2 (λ i step, factory !! i = Some step) step_ids steps).
Proof.
  split.
  - intros pre name post -> Hpre Hname. unfold make.
    by rewrite make_loop_unknown.
  - intros Hall. unfold make.
    destruct (make_loop_known factory step_ids [] Hall) as (steps & -> & H).
    by exists steps.
Qed.

End Make.

(** ** The two boundaries *)

Section Boundaries.
Context {State World Value : Type}.
Implicit Types (self : SequentialFlow State World) (s : Step State World).
Implicit Types (frm to : option string) (w : World).
Implicit Types (vars : Locals State World).


(** C10. The keyword arguments [run] accepts beyond [initial_state],
    [frm] and [to] are not used: two calls that differ in them only make
    the same calls, leave the same world and have the same result. *)
Theorem run_ignores_kwargs self (initial_state : State) frm to
    (kwargs kwargs' : gmap string Value) w :
  run self initial_state frm to kwargs w
  = run self initial_state frm to kwargs' w.
Proof. reflexivity. Qed.

End Boundaries.


(** ** More on the loop: boundaries that match nothing, flows in two parts *)

Section Parts.
Context {State World Value : Type}.
Implicit Types (self : SequentialFlow State World) (s : Step State World).
Implicit Types (steps A B pre post rest : list (Step State World)).
Implicit Types (frm to : option string) (w : World) (ex : bool).
Implicit Types (kwargs : gmap string Value).

(** The loop looks at [frm] and [to] only through the comparisons with
    the ids of its steps. *)
Lemma sweep_ext frm frm' to to' ex steps w :
  (∀ s, s ∈ steps → is_id frm (id s) = is_id frm' (id s)) →
  (∀ s, s ∈ steps → is_id to (id s) = is_id to' (id s)) →
  sweep frm to ex steps w = sweep frm' to' ex steps w.
Proof.
  revert ex w. induction steps as [|s rest IH]; intros ex w Hfrm Hto; [done|].
  assert (is_id frm (id s) = is_id frm' (id s)) as Ef by (apply Hfrm; by left).
  assert (is_id to (id s) = is_id to' (id s)) as Et by (apply Hto; by left).
  assert (∀ ex' w', sweep frm to ex' rest w' = sweep frm' to' ex' rest w')
    as Hrest.
  { intros ex' w'. apply IH; intros s' Hs'; [apply Hfrm|apply Hto]; by right. }
  destruct (is_id frm (id s) || ex) eqn:Hex.
  - destruct (start s w) as [r w'] eqn:Hst.
    destruct (failure_of r) as [e|] eqn:Hr.
    + rewrite (sweep_raises frm to _ _ _ _ _ _ _ Hex Hst Hr).
      rewrite Ef in Hex.
      by rewrite (sweep_raises frm' to' _ _ _ _ _ _ _ Hex Hst Hr).
    + destruct r as [st| |]; try done.
      rewrite (sweep_returns frm to _ _ _ _ _ _ Hex Hst).
      rewrite Ef in Hex.
      rewrite (sweep_returns frm' to' _ _ _ _ _ _ Hex Hst).
      by rewrite Et, Hrest.
  - rewrite (sweep_skip frm to _ _ _ _ Hex). rewrite Ef in Hex.
    rewrite (sweep_skip frm' to' _ _ _ _ Hex). by rewrite Hrest.
Qed.

Lemma for_each_app {T V : Type} (l1 l2 : list T)
    (f : V → T → M (State:=State) (World:=World) V) (vars : V) w :
  for_each (l1 ++ l2) f vars w
  = bind (for_each l1 f vars) (λ v, for_each l2 f v) w.
Proof.
  revert vars w. induction l1 as [|x l1 IH]; intros vars w; simpl.
  - unfold bind, ret; simpl. by destruct (for_each l2 f vars w).
  - unfold bind at 1 2 3.
    destruct (f vars x w) as [[v|e] w1 t1]; simpl; [|done].
    rewrite IH. unfold bind.
    destruct (for_each l1 f v w1) as [[v'|e'] w2 t2]; simpl; [|done].
    by rewrite app_assoc.
Qed.

(** The loop over [A ++ B] is the loop over [A] followed, if it
    completes, by the loop over [B] with the flag and in the world the
    first left. *)
Lemma sweep_app frm to ex A B w :
  sweep frm to ex (A ++ B) w
  = match outcome (sweep frm to ex A w) with
    | Ok v =>
        prefixed (trace (sweep frm to ex A w)) (state_list v) (step_list v)
          (sweep frm to (executing v) B (final_world (sweep frm to ex A w)))
    | Raise e => sweep frm to ex A w
    end.
Proof.
  unfold sweep at 1. rewrite for_each_app. unfold bind. fold (sweep frm to ex A).
  destruct (sweep frm to ex A w) as [[v|e] w1 t1]; simpl; [|done].
  by rewrite for_each_frame.
Qed.

(** Without [frm] and [to] the flag stays on. *)
Lemma sweep_unbounded_flag ex steps w v :
  ex = true →
  outcome (sweep None None ex steps w) = Ok v →
  executing v = true.
Proof.
  revert v. pattern ex, steps, w, (sweep None None ex steps w).
  apply sweep_cases; clear ex steps w.
  - by intros ex w v -> [= <-].
  - intros ex s rest w Hex _ v Htrue. simpl in Hex. congruence.
  - intros ex s rest w st w' Hex Hst IH v _. unfold prefixed.
    cbn [is_id negb outcome] in *.
    destruct (outcome (sweep None None true rest w')) as [v'|]; [|done].
    intros [= <-]; simpl. by apply IH.
  - done.
Qed.

(** No call of [success] is made inside the loop. *)
Lemma sweep_no_success frm to ex steps w msg :
  ESuccess msg ∉ trace (sweep frm to ex steps w).
Proof.
  pattern ex, steps, w, (sweep frm to ex steps w).
  apply sweep_cases; clear ex steps w; simpl.
  - intros; apply not_elem_of_nil.
  - intros ex s rest w Hex IH.
    rewrite !not_elem_of_cons. by repeat split.
  - intros ex s rest w st w' Hex Hst IH.
    rewrite !not_elem_of_cons. by repeat split.
  - intros ex s rest w r w' e Hex Hst Hr.
    rewrite !not_elem_of_cons. repeat split; try done. apply not_elem_of_nil.
Qed.

Lemma sweep_logged frm to ex steps w :
  logged (trace (sweep frm to ex steps w))
  = skip_message
    <$> select (negb <$> stage_mask (trace (sweep frm to ex steps w))) steps.
Proof.
  pattern ex, steps, w, (sweep frm to ex steps w).
  apply sweep_cases; clear ex steps w.
  - done.
  - intros ex s rest w Hex IH. unfold prefixed, logged, stage_mask in *.
    cbn. f_equal. exact IH.
  - intros ex s rest w st w' Hex Hst IH.
    unfold prefixed, logged, stage_mask in *. cbn. exact IH.
  - done.
Qed.


End Parts.

(** ** Further properties of [run] *)

Section Further.
Context {State World Value : Type}.
Implicit Types (self : SequentialFlow State World) (s : Step State World).
Implicit Types (steps A B C W pre post rest : list (Step State World)).
Implicit Types (initial_state : State) (frm to : option string) (w : World).
Implicit Types (kwargs : gmap string Value).

Lemma logged_run self initial_state frm to kwargs w :
  logged (trace (run self initial_state frm to kwargs w))
  = "Starting…"%string
    :: logged (trace (sweep frm to (is_none frm) (Steps self) w)).
Proof.
  rewrite run_sweep; simpl. unfold logged; simpl. f_equal.
  rewrite omap_app.
  destruct (outcome (sweep _ _ _ _ _)); simpl; by rewrite app_nil_r.
Qed.

(** X1. A [to] that is the id of no step is the same as no [to]: the
    two calls of [run] make the same calls, leave the same world and have
    the same result, whatever [frm] is and whether or not steps raise. *)
Theorem run_with_unknown_to_is_run_without_to
    self initial_state frm t kwargs w :
  (∀ s, s ∈ Steps self → id s ≠ t) →
  run self initial_state frm (Some t) kwargs w
  = run self initial_state frm None kwargs w.
Proof.
  intros Hno. rewrite !run_sweep.
  rewrite (sweep_ext frm frm (Some t) None); [done|done|].
  intros s Hs. simpl. apply String.eqb_neq. intros ->. by apply (Hno s).
Qed.



(** X4. Without [frm] and [to], the first step that raises stops the
    flow: when the steps before it succeed and it raises whatever the
    world, [run] raises the exception that goes with what the step raised,
    and the steps it started are the steps before and the raising step
    itself, none after. *)
Theorem run_stops_at_the_first_step_that_raises
    self initial_state kwargs w pre s post (r : StartResult State) e :
  Steps self = pre ++ s :: post →
  Forall succeeds pre →
  (∀ w', (start s w').1 = r) →
  failure_of r = Some e →
  outcome (run self initial_state None None kwargs w) = Raise e
  ∧ started_steps (trace (run self initial_state None None kwargs w))
    = pre ++ [s].
Proof.
  intros Hsteps Hpre Hs Hr.
  rewrite started_steps_run, run_sweep. cbn [is_none]. rewrite Hsteps.
  rewrite sweep_app.
  destruct (sweep_succeeds None None true pre w) as [v Hv].
  { by apply Forall_forall. }
  rewrite Hv.
  pose proof (sweep_unbounded_flag _ _ _ _ eq_refl Hv) as ->.
  destruct (sweep_ok _ _ _ _ _ _ Hv) as (_ & Hstarted & _).
  rewrite (sweep_window _ _ _ _ _ _ Hv), window_open in Hstarted by done.
  destruct (start s (final_world (sweep None None true pre w)))
    as [r' w'] eqn:Hst.
  assert (r' = r) as -> by (rewrite <- (Hs (final_world (sweep None None true pre w))); by rewrite Hst).
  rewrite (sweep_raises None None true s post _ r w' e eq_refl Hst Hr).
  unfold prefixed; simpl. split; [done|].
  unfold started_steps in *. rewrite omap_app, <- Hstarted. done.
Qed.

(** X5. [run] begins by setting the stage count and logging "Starting…",
    and it signals "Flow complete." exactly when it returns, as the last
    thing it does: a run that raises never signals success. *)
Theorem run_signals_success_exactly_when_it_returns
    self initial_state frm to kwargs w :
  (∃ calls,
      trace (run self initial_state frm to kwargs w)
      = ESetMaxStageCount (length (Steps self)) :: ELog "Starting…" :: calls)
  ∧ ((∃ v, outcome (run self initial_state frm to kwargs w) = Ok v)
     ↔ ∃ msg, ESuccess msg ∈ trace (run self initial_state frm to kwargs w))
  ∧ (∀ msg, ESuccess msg ∈ trace (run self initial_state frm to kwargs w) →
       msg = "Flow complete."%string
       ∧ last (trace (run self initial_state frm to kwargs w))
         = Some (ESuccess msg)).
Proof.
  rewrite run_sweep; simpl.
  pose proof (sweep_no_success frm to (is_none frm) (Steps self) w) as Hno.
  split; [by eexists|].
  destruct (outcome (sweep _ _ _ _ _)) as [v|e]; simpl.
  - split.
    + split; [|by eexists]. intros _. exists "Flow complete."%string.
      do 2 right. apply elem_of_app. right. by left.
    + intros msg Hin.
      apply elem_of_cons in Hin as [?|Hin]; [done|].
      apply elem_of_cons in Hin as [?|Hin]; [done|].
      apply elem_of_app in Hin as [Hin|Hin]; [by apply Hno in Hin|].
      apply list_elem_of_singleton in Hin as [= ->]. split; [done|].
      by rewrite !app_comm_cons, last_snoc.
  - rewrite app_nil_r. split.
    + split; [by intros [? ?]|]. intros [msg Hin].
      apply elem_of_cons in Hin as [?|Hin]; [done|].
      apply elem_of_cons in Hin as [?|Hin]; [done|].
      by apply Hno in Hin.
    + intros msg Hin.
      apply elem_of_cons in Hin as [?|Hin]; [done|].
      apply elem_of_cons in Hin as [?|Hin]; [done|].
      by apply Hno in Hin.
Qed.

(** X6. What [run] logs is "Starting…" and then one message for each
    step it skipped, naming the step, in the order of the steps: nothing
    is logged for a step that ran, and every skipped step is logged. *)
Theorem run_logs_the_skipped_steps self initial_state frm to kwargs w :
  logged (trace (run self initial_state frm to kwargs w))
  = "Starting…"%string
    :: (skip_message
        <$> select
              (negb <$> stage_mask
                          (trace (run self initial_state frm to kwargs w)))
              (Steps self)).
Proof. by rewrite logged_run, stage_mask_run, sweep_logged. Qed.

(** X7. A flow can be run in two parts.  Without [frm] and [to], if the
    flow of the steps [A] returns, then the flow of [A ++ B] does what the
    flow of [B] does when run in the world the first left: it returns the
    states of the first followed by the states the second produced, and
    the executed steps of both, or raises what the second raises. *)
Theorem run_of_two_parts
    self_A self_B self_AB initial_state (resumed_state : State) kwargs w
    states_A executed_A :
  Steps self_AB = Steps self_A ++ Steps self_B →
  outcome (run self_A initial_state None None kwargs w)
  = Ok (states_A, executed_A) →
  outcome (run self_AB initial_state None None kwargs w)
  = match outcome (run self_B resumed_state None None kwargs
                     (final_world (run self_A initial_state None None kwargs w)))
    with
    | Ok (states_B, executed_B) =>
        Ok (states_A ++ tail states_B, executed_A ++ executed_B)
    | Raise e => Raise e
    end
  ∧ final_world (run self_AB initial_state None None kwargs w)
    = final_world (run self_B resumed_state None None kwargs
                     (final_world (run self_A initial_state None None kwargs w))).
Proof.
  intros Hsteps. rewrite !run_sweep. cbn [is_none outcome final_world].
  rewrite Hsteps, sweep_app.
  destruct (outcome (sweep None None true (Steps self_A) w)) as [v|] eqn:Hv;
    [|done].
  intros [= <- <-].
  rewrite (sweep_unbounded_flag _ _ _ _ eq_refl Hv).
  unfold prefixed; simpl.
  by destruct (outcome (sweep None None true (Steps self_B) _)).
Qed.

(** X8. A [frm] that is the id of the first step, and of no other step,
    is the same as no [frm]: the two calls of [run] make the same calls,
    leave the same world and have the same result. *)
Theorem run_from_the_first_step_is_run_without_frm
    self initial_state to kwargs w s rest :
  Steps self = s :: rest →
  (∀ x, x ∈ rest → id x ≠ id s) →
  run self initial_state (Some (id s)) to kwargs w
  = run self initial_state None to kwargs w.
Proof.
  intros Hsteps Hrest. rewrite !run_sweep. cbn [is_none]. rewrite Hsteps.
  assert (∀ ex w', sweep (Some (id s)) to ex rest w' = sweep None to ex rest w')
    as Hsame.
  { intros ex w'. apply sweep_ext; [|done].
    intros x Hx. simpl. apply String.eqb_neq. intros Heq.
    by apply (Hrest x). }
  assert (is_id (Some (id s)) (id s) || false = true) as Hon
    by by rewrite is_id_refl.
  destruct (start s w) as [r w'] eqn:Hst.
  destruct (failure_of r) as [e|] eqn:Hr.
  - rewrite (sweep_raises _ to _ _ rest _ _ _ _ Hon Hst Hr).
    by rewrite (sweep_raises None to true _ rest _ _ _ _ eq_refl Hst Hr).
  - destruct r as [st| |]; try done.
    rewrite (sweep_returns _ to _ _ rest _ _ _ Hon Hst).
    rewrite (sweep_returns None to true _ rest _ _ _ eq_refl Hst).
    by rewrite Hsame.
Qed.



(** X13. A flow without steps returns at once: [run] returns the initial
    state alone and no executed step, whatever [frm] and [to], sets the
    stage count to 0, and signals success without opening a stage. *)
Theorem run_of_no_steps self initial_state frm to kwargs w :
  Steps self = [] →
  outcome (run self initial_state frm to kwargs w) = Ok ([initial_state], [])
  ∧ final_world (run self initial_state frm to kwargs w) = w
  ∧ trace (run self initial_state frm to kwargs w)
    = [ESetMaxStageCount 0; ELog "Starting…"; ESuccess "Flow complete."].
Proof. intros Hsteps. rewrite run_sweep, Hsteps. done. Qed.

End Further.

(** ** Further properties of [make] *)

Section FurtherMake.
Context {State World : Type}.
Implicit Types (factory : gmap string (Step State World)).
Implicit Types (step_ids ids : list string).
Implicit Types (acc : list (Step State World)).

Lemma make_loop_acc factory step_ids acc :
  make_loop factory step_ids acc
  = match make_loop factory step_ids [] with
    | Ok steps => Ok (acc ++ steps)
    | Raise e => Raise e
    end.
Proof.
  revert acc. induction step_ids as [|i step_ids IH]; intros acc; simpl.
  - by rewrite app_nil_r.
  - destruct (factory !! i) as [step|]; [|done].
    rewrite (IH (acc ++ [step])), (IH [step]).
    destruct (make_loop factory step_ids []); [|done].
    by rewrite <- app_assoc.
Qed.

Lemma make_loop_app factory ids1 ids2 acc :
  make_loop factory (ids1 ++ ids2) acc
  = match make_loop factory ids1 acc with
    | Ok steps => make_loop factory ids2 steps
    | Raise e => Raise e
    end.
Proof.
  revert acc. induction ids1 as [|i ids1 IH]; intros acc; simpl; [done|].
  by destruct (factory !! i).
Qed.

Lemma make_loop_Ok factory step_ids acc steps :
  make_loop factory step_ids acc = Ok steps →
  ∃ found,
    steps = acc ++ found
    ∧ Forall2 (λ i step, factory !! i = Some step) step_ids found.
Proof.
  revert acc. induction step_ids as [|i step_ids IH]; intros acc; simpl.
  - intros [= <-]. exists []. by rewrite app_nil_r.
  - destruct (factory !! i) as [step|] eqn:Hi; [|done].
    intros (found & -> & Hfound)%IH.
    exists (step :: found). rewrite <- app_assoc. split; [done|].
    by constructor.
Qed.

(** X11. [make] of two lists of ids one after the other is [make] of
    each: it raises what the first raises, else what the second raises,
    else it returns the flow of the steps of the first followed by the
    steps of the second. *)
Theorem make_of_two_lists factory ids1 ids2 :
  make factory (ids1 ++ ids2)
  = match make factory ids1, make factory ids2 with
    | Raise e, _ => Raise e
    | Ok _, Raise e => Raise e
    | Ok flow1, Ok flow2 =>
        Ok {| flow_name := "Custom Sequential Flow";
              Steps := Steps flow1 ++ Steps flow2 |}
    end.
Proof.
  unfold make. rewrite make_loop_app.
  destruct (make_loop factory ids1 []) as [steps1|e1]; [|done].
  rewrite make_loop_acc.
  by destruct (make_loop factory ids2 []).
Qed.

(** X12. When every step is registered under its own id, the ids of the
    steps of a flow that [make] returns are the ids it was given, in the
    same order and with the same repetitions. *)
Theorem make_keeps_the_ids factory step_ids flow :
  (∀ i step, factory !! i = Some step → id step = i) →
  make factory step_ids = Ok flow →
  id <$> Steps flow = step_ids.
Proof.
  intros Hkeyed. unfold make.
  destruct (make_loop factory step_ids []) as [steps|] eqn:Hloop; [|done].
  intros [= <-]; simpl.
  apply make_loop_Ok in Hloop as (found & -> & Hfound); simpl.
  induction Hfound as [|i step ids found Hi _ IH]; [done|].
  simpl. f_equal; [by apply Hkeyed|done].
Qed.

End FurtherMake.

(** ** Concrete runs *)

Module Scenarios.
Import Examples.

Lemma Classic_succeeds : Forall succeeds (Steps Classic).
Proof. repeat constructor. Defined.


(** The three runs of the classic flow: all of it, up to placement, and
    from placement on.  The states the steps return follow the world,
    not the initial state. *)
Example run_Classic :
  outcome (run Classic 10 None None no_kwargs 0)
  = Ok ([10; 1; 2; 3], [Synthesis; Placement; Routing]).
Proof. reflexivity. Qed.

Example run_Classic_to_Placement :
  outcome (run Classic 10 None (Some (id Placement)) no_kwargs 0)
  = Ok ([10; 1; 2], [Synthesis; Placement]).
Proof. reflexivity. Qed.

Example run_Classic_from_Placement :
  outcome (run Classic 10 (Some (id Placement)) None no_kwargs 0)
  = Ok ([10; 1; 2], [Placement; Routing]).
Proof. reflexivity. Qed.

(** A tool that fails stops the flow with [FlowError]; the steps after it
    are not started. *)
Example run_with_Crash :
  outcome (run (one Crash) 10 None None no_kwargs 0)
  = Raise (FlowError "magic returned 1")
  ∧ trace (run {| flow_name := "Signoff"; Steps := [Crash; Routing] |}
             10 None None no_kwargs 0)
    = [ESetMaxStageCount 2; ELog "Starting…"; EStartStage "DRC";
       EStart Crash (RaisesCalledProcessError "magic returned 1")].
Proof. split; reflexivity. Qed.

Example make_Custom :
  make registry [id Routing; id Synthesis]
  = Ok {| flow_name := "Custom Sequential Flow";
          Steps := [Routing; Synthesis] |}.
Proof. reflexivity. Qed.

Lemma run_returns_one_state_per_executed_step_witness :
  (length [10; 1; 2] = 1 + length [Placement; Routing]
   ∧ head [10; 1; 2] = Some 10
   ∧ [Placement; Routing] `sublist_of` Steps Classic
   ∧ [Placement; Routing]
     = select (stage_mask (trace (run Classic 10 (Some (id Placement)) None
                                    no_kwargs 0)))
         (Steps Classic)
   ∧ length (stage_mask (trace (run Classic 10 (Some (id Placement)) None
                                  no_kwargs 0)))
     = length (Steps Classic))
  ∧ ∃ states,
      outcome (run Classic 10 None None no_kwargs 0)
      = Ok (states, Steps Classic)
      ∧ length states = length (Steps Classic) + 1.
Proof.
  split.
  - apply (proj1 (run_returns_one_state_per_executed_step
                    Classic 10 (Some (id Placement)) None no_kwargs 0)).
    reflexivity.
  - apply (proj2 (run_returns_one_state_per_executed_step
                    Classic 10 None None no_kwargs 0));
      [reflexivity|reflexivity|exact Classic_succeeds].
Defined.




Lemma run_from_unknown_id_runs_nothing_witness :
  outcome (run Broken 10 (Some "Yosys.Synth") None no_kwargs 0)
  = Ok ([10], [])
  ∧ started_steps (trace (run Broken 10 (Some "Yosys.Synth") None no_kwargs 0))
    = []
  ∧ final_world (run Broken 10 (Some "Yosys.Synth") None no_kwargs 0) = 0.
Proof.
  apply (run_from_unknown_id_runs_nothing Broken 10 "Yosys.Synth" None
           no_kwargs 0).
  intros s Hs.
  repeat (apply elem_of_cons in Hs as [->|Hs]; [discriminate|]).
  by apply elem_of_nil in Hs.
Defined.

(** C3 as stated fails for a step that raises: in the broken flow the
    stage of the step that raises is opened and never closed. *)
Lemma stage_of_a_raising_step_stays_open :
  outcome (run Broken 10 None None no_kwargs 0)
  = Raise (FlowException "no DEF in state")
  ∧ progress_calls (trace (run Broken 10 None None no_kwargs 0))
    = [ESetMaxStageCount 3;
       EStartStage "Synthesis"; EEndStage false;
       EStartStage "Check"]
  ∧ stage_opens (trace (run Broken 10 None None no_kwargs 0)) = 2
  ∧ stage_closes (trace (run Broken 10 None None no_kwargs 0)) = 1
  ∧ stage_opens (trace (run Broken 10 None None no_kwargs 0))
    ≠ stage_closes (trace (run Broken 10 None None no_kwargs 0)).
Proof. repeat split. intros H. discriminate H. Qed.

Lemma run_raises_exactly_when_a_started_step_raises_witness :
  outcome (run Broken 10 None None no_kwargs 0)
  = Raise (FlowException "no DEF in state")
  ∧ clean [ESetMaxStageCount 3; ELog "Starting…";
           EStartStage "Synthesis"; EStart Synthesis (Returns 1);
           EEndStage false; EStartStage "Check"].
Proof.
  destruct (run_raises_exactly_when_a_started_step_raises
              Broken 10 None None no_kwargs 0) as (Hin & _ & Hlast & _).
  split.
  - apply Hin. exists NoInput. vm_compute. do 6 right. left.
  - apply (Hlast _ NoInput (RaisesMissingInputError "no DEF in state") []).
    + reflexivity.
    + discriminate.
Defined.

(** C5 as stated fails: were [start] applied to the most recent state, a
    step that returns the successor of the state it is applied to would
    turn the list [[S0]] into [[S0; S0 + 1]] for every initial state
    [S0].  Under [run] no step does, however it is written. *)
Lemma no_step_is_started_on_the_latest_state :
  ¬ ∃ impl : Step nat nat,
      ∀ S0 : nat,
        outcome (run (one impl) S0 None None no_kwargs 0)
        = Ok ([S0; S S0], [impl]).
Proof.
  intros [impl H].
  pose proof (H 0) as H0. pose proof (H 1) as H1.
  rewrite run_sweep in H0, H1. simpl in H0, H1.
  destruct (outcome (sweep None None true [impl] 0)) as [v|e]; [|done].
  congruence.
Qed.

Lemma run_appends_what_start_returns_witness :
  [10; 1; 2]
  = 10 :: returned_states
            (trace (run Classic 10 (Some (id Placement)) None no_kwargs 0))
  ∧ [Placement; Routing]
    = started_steps
        (trace (run Classic 10 (Some (id Placement)) None no_kwargs 0)).
Proof.
  apply (proj1 (run_appends_what_start_returns
                  Classic 10 (Some (id Placement)) None no_kwargs 0)).
  reflexivity.
Defined.

Lemma make_resolves_every_id_or_rejects_the_first_unknown_witness :
  make registry [id Synthesis; id Placement; id Routing]
  = Raise (TypeError "No step found with id 'OpenROAD.Placement'")
  ∧ ∃ steps,
      make registry [id Routing; id Synthesis]
      = Ok {| flow_name := "Custom Sequential Flow"; Steps := steps |}
      ∧ Forall2 (λ i step, registry !! i = Some step)
          [id Routing; id Synthesis] steps.
Proof.
  split.
  - apply (proj1 (make_resolves_every_id_or_rejects_the_first_unknown
                    registry [id Synthesis; id Placement; id Routing])
             [id Synthesis] (id Placement) [id Routing]).
    + reflexivity.
    + intros i Hi. apply elem_of_cons in Hi as [->|Hi].
      * exists Synthesis. reflexivity.
      * by apply elem_of_nil in Hi.
    + reflexivity.
  - apply (proj2 (make_resolves_every_id_or_rejects_the_first_unknown
                    registry [id Routing; id Synthesis])).
    intros i Hi.
    apply elem_of_cons in Hi as [->|Hi]; [exists Routing; reflexivity|].
    apply elem_of_cons in Hi as [->|Hi]; [exists Synthesis; reflexivity|].
    by apply elem_of_nil in Hi.
Defined.


End Scenarios.

(** ** More concrete runs *)

Module FurtherScenarios.
Import Examples.




Lemma run_with_unknown_to_is_run_without_to_witness :
  run Classic 10 (Some (id Placement)) (Some "OpenROAD.Route") no_kwargs 0
  = run Classic 10 (Some (id Placement)) None no_kwargs 0.
Proof.
  apply run_with_unknown_to_is_run_without_to.
  intros s Hs.
  repeat (apply elem_of_cons in Hs as [->|Hs]; [discriminate|]).
  by apply elem_of_nil in Hs.
Defined.



Lemma run_stops_at_the_first_step_that_raises_witness :
  outcome (run Signoff 10 None None no_kwargs 0)
  = Raise (FlowError "magic returned 1")
  ∧ started_steps (trace (run Signoff 10 None None no_kwargs 0))
    = [Synthesis; Placement] ++ [Crash].
Proof.
  apply (run_stops_at_the_first_step_that_raises Signoff 10 no_kwargs 0
           [Synthesis; Placement] Crash [Routing]
           (RaisesCalledProcessError "magic returned 1")).
  - reflexivity.
  - repeat constructor.
  - reflexivity.
  - reflexivity.
Defined.

Lemma run_signals_success_exactly_when_it_returns_witness :
  "Flow complete."%string = "Flow complete."%string
  ∧ last (trace (run Classic 10 None None no_kwargs 0))
    = Some (ESuccess "Flow complete.").
Proof.
  apply (proj2 (proj2 (run_signals_success_exactly_when_it_returns
                         Classic 10 None None no_kwargs 0))).
  vm_compute. do 11 right. left.
Defined.

Lemma run_of_two_parts_witness :
  outcome (run Classic 10 None None no_kwargs 0)
  = match outcome (run (one Routing) 77 None None no_kwargs
                     (final_world
                        (run {| flow_name := "Front";
                                Steps := [Synthesis; Placement] |}
                           10 None None no_kwargs 0)))
    with
    | Ok (states_B, executed_B) =>
        Ok ([10; 1; 2] ++ tail states_B, [Synthesis; Placement] ++ executed_B)
    | Raise e => Raise e
    end
  ∧ final_world (run Classic 10 None None no_kwargs 0)
    = final_world
        (run (one Routing) 77 None None no_kwargs
           (final_world
              (run {| flow_name := "Front"; Steps := [Synthesis; Placement] |}
                 10 None None no_kwargs 0))).
Proof.
  apply (run_of_two_parts
           {| flow_name := "Front"; Steps := [Synthesis; Placement] |}
           (one Routing) Classic 10 77 no_kwargs 0).
  - reflexivity.
  - reflexivity.
Defined.

Lemma run_from_the_first_step_is_run_without_frm_witness :
  run Classic 10 (Some (id Synthesis)) (Some (id Placement)) no_kwargs 0
  = run Classic 10 None (Some (id Placement)) no_kwargs 0.
Proof.
  apply (run_from_the_first_step_is_run_without_frm Classic 10
           (Some (id Placement)) no_kwargs 0 Synthesis [Placement; Routing]).
  - reflexivity.
  - intros x Hx.
    repeat (apply elem_of_cons in Hx as [->|Hx]; [discriminate|]).
    by apply elem_of_nil in Hx.
Defined.



Lemma run_of_no_steps_witness :
  outcome (run {| flow_name := "Empty"; Steps := [] |} 10
             (Some (id Synthesis)) (Some (id Routing)) no_kwargs 0)
  = Ok ([10], [])
  ∧ final_world (run {| flow_name := "Empty"; Steps := [] |} 10
                   (Some (id Synthesis)) (Some (id Routing)) no_kwargs 0)
    = 0
  ∧ trace (run {| flow_name := "Empty"; Steps := [] |} 10
             (Some (id Synthesis)) (Some (id Routing)) no_kwargs 0)
    = [ESetMaxStageCount 0; ELog "Starting…"; ESuccess "Flow complete."].
Proof. apply run_of_no_steps. reflexivity. Defined.

Lemma make_keeps_the_ids_witness :
  id <$> [Routing; Synthesis; Routing]
  = [id Routing; id Synthesis; id Routing].
Proof.
  apply (make_keeps_the_ids registry [id Routing; id Synthesis; id Routing]
           {| flow_name := "Custom Sequential Flow";
              Steps := [Routing; Synthesis; Routing] |}).
  - intros i step. unfold registry.
    rewrite !lookup_insert_Some, lookup_empty.
    intros [[<- <-]|[_ [[<- <-]|[_ ?]]]]; done.
  - reflexivity.
Defined.

End FurtherScenarios.
